(** * lstm_swesb_text_gen.py: vocabulary, windowing and sampling loop

    A shallow embedding of the data-preparation half of
    [get_dataset_and_info] and of the sampling loop [generate_text] of
    [2020.09/lstm_swesb_text_gen.py].

    Conventions.
    - A Python [str] is a sequence of Unicode code points; a character is
      embedded as its code point, a string as a list of them.
    - Python integers are unbounded: ids are in [Z].
    - A [dict] is a [gmap], a [set] a [gset], a numpy array / tensor of rank
      one a [list]; [a[i]] on an array raises [IndexError] out of range and
      counts from the end for negative [i]. An array of one-character
      strings stores code points, and an entry is read as a string.
    - Errors raised inside Keras and TensorFlow are not modelled: a call of
      the model and a draw return.
    - A raising expression returns [Raise e]; mutation of the model's
      recurrent state and of TensorFlow's random generator is threaded
      through a state-and-exception monad. *)

From Stdlib Require Import Ascii String.
From Equations Require Import Equations.
From stdpp Require Import base numbers list sorting gmap.

Local Open Scope Z_scope.

(** ** Characters and strings *)

(** Code point of a character ([ord c]). *)
Abbreviation char := N (only parsing).
Abbreviation str := (list N) (only parsing).

(** Literals: the code points of an ASCII string. *)
Fixpoint str_of (s : string) : str :=
  match s with
  | EmptyString => []
  | String a s' => N_of_ascii a :: str_of s'
  end.

(** ** Exceptions *)

Inductive exn : Type :=
| KeyError (c : char)     (* [d[c]] on a dict without key [c] *)
| IndexError.             (* [a[i]] out of range *)

Inductive result (A : Type) : Type :=
| Ok (a : A)
| Raise (e : exn).
Arguments Ok {A} a.
Arguments Raise {A} e.

Definition is_Ok {A} (r : result A) : Prop := ∃ a, r = Ok a.

(** ** Python and numpy primitives *)

(** [sorted(xs)] on characters: ascending by code point. *)
Definition sorted (xs : str) : str := merge_sort N.le xs.

(** [enumerate(l)], counting from [start]. *)
Fixpoint enumerate_from {A} (start : Z) (l : list A) : list (Z * A) :=
  match l with
  | [] => []
  | x :: l' => (start, x) :: enumerate_from (start + 1) l'
  end.

Definition enumerate {A} (l : list A) : list (Z * A) := enumerate_from 0 l.

(** [{c: i for i, c in kvs}]: items are stored left to right, a later item
    overwrites an earlier one with the same key. *)
Definition dict_of (kvs : list (Z * N)) : gmap N Z :=
  foldl (λ d ic, <[ic.2 := ic.1]> d) ∅ kvs.

(** [d[c]]. *)
Definition dict_getitem (d : gmap N Z) (c : char) : result Z :=
  match d !! c with
  | Some i => Ok i
  | None => Raise (KeyError c)
  end.

(** [[d[c] for c in s]]: the first missing key raises. *)
Fixpoint encode (d : gmap N Z) (s : str) : result (list Z) :=
  match s with
  | [] => Ok []
  | c :: s' =>
      match dict_getitem d c with
      | Raise e => Raise e
      | Ok i =>
          match encode d s' with
          | Raise e => Raise e
          | Ok ids => Ok (i :: ids)
          end
      end
  end.

(** [a[i]] on a rank-one array. *)
Definition np_getitem {A} (a : list A) (i : Z) : result A :=
  let n := Z.of_nat (length a) in
  let j := if i <? 0 then i + n else i in
  if (0 <=? j) && (j <? n) then
    match a !! (Z.to_nat j) with
    | Some x => Ok x
    | None => Raise IndexError
    end
  else Raise IndexError.

(** [np.array(l)] for a list [l] of one-character strings: an array of
    dtype [<U1], which stores one code point per entry. *)
Definition np_array (l : str) : list N := l.

(** The string that an entry of a [<U1] array reads as. numpy strips the
    trailing NUL code points of a fixed-width entry when it is read, so the
    entry that holds U+0000 reads as the empty string; any other entry
    reads as its one character. *)
Definition U1_item (c : N) : str := if decide (c = 0%N) then [] else [c].

(** [a[i]] on a rank-one array of dtype [<U1]. *)
Definition np_str_getitem (a : list N) (i : Z) : result str :=
  match np_getitem a i with
  | Ok c => Ok (U1_item c)
  | Raise e => Raise e
  end.

(** ** Data preparation: [get_dataset_and_info] *)

Definition SEQUENCE_LEN : nat := 100.

(** [seq[:-1]] and [seq[1:]]. *)
Definition seq_to_supervised {A} (seq : list A) : list A * list A :=
  let X := take (length seq - 1)%nat seq in
  let Y := drop 1 seq in
  (X, Y).

(** [Dataset.batch(batch_size, drop_remainder)] on a finite dataset:
    consecutive groups of [batch_size] elements; the last group, when
    shorter, is kept or dropped. TensorFlow refuses a batch size below one,
    which the script never passes ([SEQUENCE_LEN + 1]); no batch is produced
    for it here. *)
Equations? batch {A} (batch_size : nat) (drop_remainder : bool) (l : list A) :
    list (list A) by wf (length l) lt :=
  batch 0 _ _ := [];
  batch (S n) _ [] := [];
  batch (S n) drop_remainder (x :: l)
    with decide (length (x :: l) < S n)%nat => {
    | left _ := if drop_remainder then [] else [x :: l];
    | right _ := take (S n) (x :: l)
                 :: batch (S n) drop_remainder (drop (S n) (x :: l)) }.
Proof. rewrite length_drop. simpl. lia. Qed.

(** The dictionary [info]. [vocab] is a Python list of one-character
    strings; [id2char] is the numpy array of dtype [<U1] made from it, read
    with [np_str_getitem]. *)
Record info := {
  vocab : str;
  char2id : gmap N Z;
  id2char : list N;
  text_as_ids : list Z
}.

(** The body of [get_dataset_and_info] from [text = get_text()] on, with the
    module constant [SEQUENCE_LEN] as the parameter [seq_len]. *)
Definition get_dataset_and_info_with (seq_len : nat) (text : str) :
    result (list (list Z * list Z) * info) :=
  let vocab := sorted (elements (list_to_set text : gset N)) in
  let char2id := dict_of (enumerate vocab) in
  let id2char := np_array vocab in
  match encode char2id text with
  | Raise e => Raise e
  | Ok text_as_ids =>
      let char_dataset := text_as_ids in
      let char_sequences := batch (seq_len + 1) true char_dataset in
      let dataset := seq_to_supervised <$> char_sequences in
      Ok (dataset,
          {| vocab := vocab; char2id := char2id; id2char := id2char;
             text_as_ids := text_as_ids |})
  end.

Definition get_dataset_and_info : str → result (list (list Z * list Z) * info) :=
  get_dataset_and_info_with SEQUENCE_LEN.

(** ** The framework, as far as the sampling loop uses it

    Keras and TensorFlow are external. The loop needs: a stateful model
    (weights, and a recurrent state that [reset_states] clears and every
    call advances) that maps a batch of one id sequence to one score vector
    per position, and [tf.random.categorical], which draws an id from a
    score vector and advances the global random generator. The batch axis,
    always of size one here, is left out. Both are taken to return: an
    error raised inside the framework is outside this model. *)
Class Framework := {
  Score : Type;
  Weights : Type;
  State : Type;
  Rng : Type;
  zero_state : State;
  forward : Weights → State → list Z → State * list (list Score);
  categorical : Rng → list Score → Rng * Z
}.

Section Sampler.
Context `{F : Framework}.

(** What the loop reads and mutates: the model object and the random
    generator. [fed] records, oldest first, the argument of every call
    [model(char_ids)]; nothing reads it. *)
Record world := World {
  weights : Weights;
  lstm : State;
  gen : Rng;
  fed : list (list Z)
}.

(** Computations that may raise and that mutate the world; what was
    mutated before an exception stays mutated. *)
Definition M (A : Type) : Type := world → result A * world.

Definition ret {A} (a : A) : M A := λ w, (Ok a, w).

Definition bind {A B} (m : M A) (k : A → M B) : M B :=
  λ w, match m w with
       | (Ok a, w') => k a w'
       | (Raise e, w') => (Raise e, w')
       end.

Definition lift {A} (r : result A) : M A := λ w, (r, w).

(** [model.reset_states()]. *)
Definition reset_states : M unit :=
  λ w, (Ok tt, {| weights := weights w; lstm := zero_state;
                  gen := gen w; fed := fed w |}).

(** [model(char_ids)]. *)
Definition call_model (char_ids : list Z) : M (list (list Score)) :=
  λ w, let '(st, out) := forward (weights w) (lstm w) char_ids in
       (Ok out, {| weights := weights w; lstm := st;
                   gen := gen w; fed := fed w ++ [char_ids] |}).

(** [tf.random.categorical(Y, num_samples=1)[-1, 0].numpy()]. *)
Definition random_categorical (Y : list Score) : M Z :=
  λ w, let '(g, i) := categorical (gen w) Y in
       (Ok i, {| weights := weights w; lstm := lstm w;
                 gen := g; fed := fed w |}).
End Sampler.

#[global] Instance M_ret `{Framework} : MRet M := @ret _.
#[global] Instance M_bind `{Framework} : MBind M := λ A B k m, bind m k.

Section GenerateText.
Context `{F : Framework}.

(** One pass through the body of the [for] loop, up to the string that
    is appended: [model(char_ids)[:, -1]], the draw, and
    [id2char[pred_id]], an entry of a [<U1] array. *)
Definition sample_char (char_ids : list Z) (id2char : str) : M str :=
  out ← call_model char_ids;
  Y ← lift (np_getitem out (-1));
  pred_id ← random_categorical Y;
  lift (np_str_getitem id2char pred_id).

(** The [for] loop with [n] iterations to go; [generated_text] is the
    list of the strings appended so far. [char_ids] is assigned once
    before the loop and not inside it. *)
Fixpoint sampling_loop (n : nat) (char_ids : list Z) (id2char : str)
    (generated_text : list (list N)) : M (list (list N)) :=
  match n with
  | O => mret generated_text
  | S n' =>
      c ← sample_char char_ids id2char;
      sampling_loop n' char_ids id2char (generated_text ++ [c])
  end.

(** [range(num_generate)] is empty for a negative [num_generate];
    [''.join(generated_text)] is the concatenation of the strings. *)
Definition generate_text (start_string : str) (char2id : gmap N Z)
    (id2char : str) (num_generate : Z) : M str :=
  reset_states;;
  char_ids ← lift (encode char2id start_string);
  generated_text ←
    sampling_loop (Z.to_nat num_generate) char_ids id2char [];
  mret (start_string ++ concat generated_text).

(** The loop as section 4.5 of the specification and the comment above
    line 96 describe it, for comparison: after the first pass the model
    reads the id just drawn. *)
Definition sample_id (char_ids : list Z) : M Z :=
  out ← call_model char_ids;
  Y ← lift (np_getitem out (-1));
  random_categorical Y.

Fixpoint sampling_loop_described (n : nat) (char_ids : list Z)
    (id2char : str) (generated_text : list (list N)) : M (list (list N)) :=
  match n with
  | O => mret generated_text
  | S n' =>
      pred_id ← sample_id char_ids;
      c ← lift (np_str_getitem id2char pred_id);
      sampling_loop_described n' [pred_id] id2char (generated_text ++ [c])
  end.

Definition generate_text_described (start_string : str)
    (char2id : gmap N Z) (id2char : str) (num_generate : Z) : M str :=
  reset_states;;
  char_ids ← lift (encode char2id start_string);
  generated_text ←
    sampling_loop_described (Z.to_nat num_generate) char_ids id2char [];
  mret (start_string ++ concat generated_text).

(** What the script relies on when it builds the model with
    [return_sequences=True] and a last layer [Dense(vocab_size)]: one
    score vector per position read, each with [vocab_size] scores; and
    [tf.random.categorical] draws the index of one of the scores. *)
Record well_formed (vocab_size : nat) : Prop := {
  wf_positions : ∀ wt st ids, length (forward wt st ids).2 = length ids;
  wf_scores : ∀ wt st ids,
    Forall (λ Y, length Y = vocab_size) (forward wt st ids).2;
  wf_draw : ∀ g Y, Y ≠ [] →
    0 ≤ (categorical g Y).2 < Z.of_nat (length Y)
}.

(** The world after [model.reset_states()]. *)
Definition reset (w : world) : world := (reset_states w).2.

(** Two worlds between which a sampling run cannot tell. *)
Definition same_model (w1 w2 : world) : Prop :=
  weights w1 = weights w2 ∧ lstm w1 = lstm w2 ∧ gen w1 = gen w2.
End GenerateText.

(** ** The training batches of [main]

    Lines 105 and 109: the examples are shuffled through a buffer and
    grouped into batches. [shuffle buffer_size ds] stands for the order in
    which [ds.shuffle(buffer_size)] yields the elements of [ds] in one pass
    over the dataset; TensorFlow draws it at random. *)
Definition BUFFER_SIZE : nat := 10000.
Definition BATCH_SIZE : nat := 32.

(** [Dataset.batch] on a dataset of pairs: each batch is a pair, the
    stacked first components and the stacked second components. *)
Definition batch_pairs {A B} (batch_size : nat) (drop_remainder : bool)
    (ds : list (A * B)) : list (list A * list B) :=
  (λ b, (b.*1, b.*2)) <$> batch batch_size drop_remainder ds.

Definition main_dataset_with
    (shuffle : nat → list (list Z * list Z) → list (list Z * list Z))
    (seq_len buffer_size batch_size : nat) (text : str) :
    result (list (list (list Z) * list (list Z)) * info) :=
  match get_dataset_and_info_with seq_len text with
  | Raise e => Raise e
  | Ok (ds, info) =>
      let ds := batch_pairs batch_size true (shuffle buffer_size ds) in
      Ok (ds, info)
  end.

Definition main_dataset
    (shuffle : nat → list (list Z * list Z) → list (list Z * list Z)) :
    str → result (list (list (list Z) * list (list Z)) * info) :=
  main_dataset_with shuffle SEQUENCE_LEN BUFFER_SIZE BATCH_SIZE.

(** ** A small framework instance to run the loop on

    Three scores per position; the scores depend on the weights, on the
    recurrent state and on the id read, the draw on the generator and on
    the first score. *)
Definition toy_forward (wt st : Z) (ids : list Z) : Z * list (list Z) :=
  (st + Z.of_nat (length ids),
   (λ i, [wt + st + i; wt + st + i + 1; wt + st + i + 2]) <$> ids).

Definition toy_categorical (g : Z) (Y : list Z) : Z * Z :=
  (g + 1, (g + default 0 (head Y)) `mod` Z.of_nat (length Y)).

Definition toy : Framework := {|
  Score := Z;
  Weights := Z;
  State := Z;
  Rng := Z;
  zero_state := 0;
  forward := toy_forward;
  categorical := toy_categorical
|}.

Definition toy_world (st g : Z) : @world toy :=
  {| weights := 0 : @Weights toy; lstm := st : @State toy;
     gen := g : @Rng toy; fed := [] |}.

(** The vocabulary maps of the corpus [abc]. *)
Definition abc_char2id : gmap N Z := dict_of (enumerate (str_of "abc")).
Definition abc_id2char : str := str_of "abc".

(** A corpus with the character U+0000 between [a] and [b], and its
    vocabulary maps. *)
Definition nul_text : str := [97; 0; 98]%N.
Definition nul_char2id : gmap N Z := dict_of (enumerate [0; 97; 98]%N).
Definition nul_id2char : str := np_array [0; 97; 98]%N.

(** * Properties *)

(** ** Sorting and the vocabulary *)

Lemma sorted_Permutation xs : sorted xs ≡ₚ xs.
Proof. apply merge_sort_Permutation. Qed.

Lemma sorted_le xs : StronglySorted N.le (sorted xs).
Proof. apply (StronglySorted_merge_sort N.le). Qed.

Lemma StronglySorted_le_lt (l : list N) :
  StronglySorted N.le l → NoDup l → StronglySorted N.lt l.
Proof.
  induction 1 as [|x l Hl IH Hx]; intros Hnd; [constructor|].
  apply NoDup_cons in Hnd as [Hxl Hnd].
  constructor; [by apply IH|].
  rewrite Forall_forall in Hx |- *. intros y Hy.
  specialize (Hx y Hy).
  assert (x ≠ y) by (intros ->; done). lia.
Qed.

Section Vocabulary.
Variable text : list N.

Local Abbreviation voc := (sorted (elements (list_to_set text : gset N))).

Lemma vocab_elem_of c : c ∈ voc ↔ c ∈ text.
Proof.
  rewrite sorted_Permutation, elem_of_elements.
  apply elem_of_list_to_set.
Qed.

Lemma vocab_NoDup : NoDup voc.
Proof.
  rewrite sorted_Permutation. apply NoDup_elements.
Qed.

Lemma vocab_lt : StronglySorted N.lt voc.
Proof.
  apply StronglySorted_le_lt; [apply sorted_le | apply vocab_NoDup].
Qed.
End Vocabulary.

Lemma NoDup_count_1 (l : list N) c :
  NoDup l → c ∈ l → length (filter (λ x, x = c) l) = 1%nat.
Proof.
  induction 1 as [|x l Hx Hnd IH]; intros Hc; [by apply elem_of_nil in Hc|].
  rewrite filter_cons. destruct (decide (x = c)) as [->|Hne].
  - simpl. f_equal. apply length_zero_iff_nil.
    destruct (filter (λ x, x = c) l) as [|y ys] eqn:E; [done|].
    assert (y ∈ filter (λ x, x = c) l) as Hy by (rewrite E; left).
    apply list_elem_of_filter in Hy as [-> ?]. done.
  - apply elem_of_cons in Hc as [->|Hc]; [done|]. by apply IH.
Qed.

Lemma StronglySorted_lt_lookup (l : list N) i j x y :
  StronglySorted N.lt l → l !! i = Some x → l !! j = Some y →
  (i < j)%nat → (x < y)%N.
Proof.
  intros Hl. revert i j. induction Hl as [|a l Hl IH Ha]; intros i j Hi Hj Hij.
  - by rewrite lookup_nil in Hi.
  - destruct j as [|j]; [lia|]. simpl in Hj. destruct i as [|i].
    + simpl in Hi. injection Hi as ->.
      rewrite Forall_forall in Ha. apply Ha. by eapply list_elem_of_lookup_2.
    + simpl in Hi. apply (IH i j); [done|done|lia].
Qed.

(** ** The dictionary built from an enumeration *)

Lemma dict_fold_notin (l : list N) k (d : gmap N Z) c :
  c ∉ l →
  foldl (λ d ic, <[ic.2 := ic.1]> d) d (enumerate_from k l) !! c = d !! c.
Proof.
  revert k d. induction l as [|x l IH]; intros k d Hc; simpl; [done|].
  apply not_elem_of_cons in Hc as [Hne Hc].
  rewrite IH by done. by apply lookup_insert_ne.
Qed.

Lemma dict_fold_lookup (l : list N) k (d : gmap N Z) c j :
  NoDup l → l !! j = Some c →
  foldl (λ d ic, <[ic.2 := ic.1]> d) d (enumerate_from k l) !! c
  = Some (k + Z.of_nat j).
Proof.
  intros Hnd. revert k d j.
  induction Hnd as [|x l Hx Hnd IH]; intros k d j Hj; [done|].
  destruct j as [|j]; simpl in *.
  - injection Hj as ->. rewrite dict_fold_notin by done.
    rewrite lookup_insert_eq. f_equal. lia.
  - rewrite (IH _ _ j) by done. f_equal. lia.
Qed.

(** With distinct keys, [{c: i for i, c in enumerate(l)}[c] == i] exactly
    when [l[i] == c]. *)
Lemma dict_of_enumerate_lookup (l : list N) c i :
  NoDup l →
  dict_of (enumerate l) !! c = Some i ↔ 0 ≤ i ∧ l !! (Z.to_nat i) = Some c.
Proof.
  intros Hnd. unfold dict_of, enumerate. split.
  - intros Hi. destruct (decide (c ∈ l)) as [Hc|Hc].
    + apply list_elem_of_lookup_1 in Hc as [j Hj].
      rewrite (dict_fold_lookup l 0 ∅ c j) in Hi by done.
      injection Hi as <-. split; [lia|].
      by replace (Z.to_nat (0 + Z.of_nat j)) with j by lia.
    + rewrite dict_fold_notin in Hi by done. by rewrite lookup_empty in Hi.
  - intros [Hi Hl]. rewrite (dict_fold_lookup l 0 ∅ c _ Hnd Hl). f_equal. lia.
Qed.

Lemma dict_of_enumerate_None (l : list N) c :
  dict_of (enumerate l) !! c = None ↔ c ∉ l.
Proof.
  unfold dict_of, enumerate. split.
  - intros Hn Hc. revert Hn. generalize (∅ : gmap N Z) 0.
    induction l as [|x l IH]; intros d k; [by apply elem_of_nil in Hc|].
    simpl. destruct (decide (c ∈ l)) as [Hl|Hl]; [by apply IH|].
    apply elem_of_cons in Hc as [->|?]; [|done].
    rewrite dict_fold_notin by done. by rewrite lookup_insert_eq.
  - intros Hc. rewrite dict_fold_notin by done. apply lookup_empty.
Qed.

(** ** Indexing *)

Ltac bool_lia :=
  rewrite ?andb_true_iff, ?Z.leb_le, ?Z.ltb_lt, ?Z.ltb_ge; lia.

Lemma np_getitem_Ok {A} (a : list A) i x :
  0 ≤ i → np_getitem a i = Ok x ↔ a !! (Z.to_nat i) = Some x.
Proof.
  intros Hi. unfold np_getitem.
  assert ((i <? 0) = false) as -> by bool_lia.
  destruct (a !! (Z.to_nat i)) as [y|] eqn:E.
  - apply lookup_lt_Some in E as Hlt.
    assert ((0 <=? i) && (i <? Z.of_nat (length a)) = true) as ->
      by bool_lia.
    split; congruence.
  - destruct ((0 <=? i) && (i <? Z.of_nat (length a))); split; congruence.
Qed.

Lemma np_getitem_last {A} (a : list A) :
  np_getitem a (-1)
  = match last a with Some x => Ok x | None => Raise IndexError end.
Proof.
  unfold np_getitem. simpl (-1 <? 0). cbv iota.
  destruct a as [|x a _] using rev_ind; [done|].
  rewrite last_snoc, length_app. simpl.
  assert ((0 <=? -1 + Z.of_nat (length a + 1)) &&
          (-1 + Z.of_nat (length a + 1) <? Z.of_nat (length a + 1)) = true) as ->
    by bool_lia.
  replace (Z.to_nat (-1 + Z.of_nat (length a + 1))) with (length a) by lia.
  by rewrite list_lookup_middle.
Qed.

(** *** Reading an entry of [id2char] *)

Lemma np_str_getitem_Ok (a : list N) i c :
  0 ≤ i → a !! (Z.to_nat i) = Some c → np_str_getitem a i = Ok (U1_item c).
Proof.
  intros Hi Hc. unfold np_str_getitem.
  by rewrite (proj2 (np_getitem_Ok a i c Hi) Hc).
Qed.

Lemma np_str_getitem_inv (a : list N) i s :
  np_str_getitem a i = Ok s → ∃ c, c ∈ a ∧ s = U1_item c.
Proof.
  unfold np_str_getitem, np_getitem. destruct (_ && _); [|done].
  destruct (a !! _) as [c|] eqn:Hc; [|done].
  intros [= <-]. exists c. split; [|done]. by eapply list_elem_of_lookup_2.
Qed.

Lemma np_str_getitem_Raise (a : list N) i e :
  np_str_getitem a i = Raise e → e = IndexError.
Proof.
  unfold np_str_getitem, np_getitem. destruct (_ && _); [|congruence].
  destruct (a !! _); congruence.
Qed.

Lemma concat_singletons {A} (l : list A) : concat ((λ c, [c]) <$> l) = l.
Proof. induction l as [|x l IH]; csimpl; [done|]. by rewrite IH. Qed.


(** The strings read from an array: at most one character each, none of
    them U+0000, and exactly one each when no entry is U+0000. *)
Lemma U1_items_concat (a : list N) (items : list (list N)) :
  Forall (λ it, ∃ c, c ∈ a ∧ it = U1_item c) items →
  (length (concat items) ≤ length items)%nat ∧
  Forall (λ c, c ∈ a ∧ c ≠ 0%N) (concat items) ∧
  (0%N ∉ a → items = (λ c, [c]) <$> concat items).
Proof.
  induction 1 as [|it items (c & Hc & ->) _ (IHlen & IHall & IHeq)].
  { simpl. split; [lia|]. by split. }
  simpl. rewrite length_app. unfold U1_item.
  destruct (decide (c = 0%N)) as [->|Hne]; simpl.
  - split; [lia|]. split; [done|]. intros Hn. done.
  - split; [lia|]. split; [by constructor|].
    intros Hn. f_equal. by apply IHeq.
Qed.

(** ** Encoding a string *)

Lemma encode_Ok (d : gmap N Z) (s : list N) :
  Forall (λ c, is_Some (d !! c)) s →
  ∃ ids, encode d s = Ok ids ∧ Forall2 (λ c i, d !! c = Some i) s ids.
Proof.
  induction 1 as [|c s [i Hc] Hs (ids & IH & Hids)]; simpl.
  - exists []. by split.
  - unfold dict_getitem. rewrite Hc, IH. exists (i :: ids).
    split; [done|]. by constructor.
Qed.

Lemma encode_Ok_inv (d : gmap N Z) (s : list N) ids :
  encode d s = Ok ids → Forall2 (λ c i, d !! c = Some i) s ids.
Proof.
  revert ids. induction s as [|c s IH]; simpl; intros ids H.
  - injection H as <-. constructor.
  - unfold dict_getitem in H. destruct (d !! c) as [i|] eqn:Hc; [|done].
    destruct (encode d s) as [ids'|]; [|done]. injection H as <-.
    constructor; [done|]. by apply IH.
Qed.

Lemma encode_Raise (d : gmap N Z) (pre post : list N) c :
  Forall (λ c, is_Some (d !! c)) pre → d !! c = None →
  encode d (pre ++ c :: post) = Raise (KeyError c).
Proof.
  induction 1 as [|x pre [i Hx] Hpre IH]; intros Hc; simpl.
  - unfold dict_getitem. by rewrite Hc.
  - unfold dict_getitem at 1. rewrite Hx. by rewrite IH.
Qed.

(** A string with a character that is not a key has a first such one. *)
Lemma first_missing (d : gmap N Z) (s : list N) :
  ¬ Forall (λ c, is_Some (d !! c)) s →
  ∃ pre c post, s = pre ++ c :: post ∧
    Forall (λ c, is_Some (d !! c)) pre ∧ d !! c = None.
Proof.
  induction s as [|x s IH]; intros Hs; [by destruct Hs|].
  destruct (d !! x) as [i|] eqn:Hx.
  - destruct IH as (pre & c & post & -> & Hpre & Hc).
    { intros H. apply Hs. constructor; [by rewrite Hx|done]. }
    exists (x :: pre), c, post. split; [done|]. split; [|done].
    constructor; [by rewrite Hx|done].
  - by exists [], x, s.
Qed.

(** ** Batching *)

Section Batch.
Context {A : Type}.
Implicit Types (l w : list A) (n k : nat).

Lemma batch_short n l :
  (length l < S n)%nat → batch (S n) true l = [].
Proof.
  intros Hl. destruct l as [|x l]; simp batch; [done|].
  destruct (decide _); simpl; [done|lia].
Qed.

Lemma batch_step n l :
  (S n ≤ length l)%nat →
  batch (S n) true l = take (S n) l :: batch (S n) true (drop (S n) l).
Proof.
  intros Hl. destruct l as [|x l]; [simpl in Hl; lia|]. simp batch.
  destruct (decide _); simpl in *; [lia|done].
Qed.

(** The [k]-th batch, when there is one, is the [k]-th run of
    [batch_size] consecutive elements; there is one as long as a full run
    is left. *)
Lemma batch_lookup n l k :
  batch (S n) true l !! k =
  if decide ((k + 1) * S n ≤ length l)%nat
  then Some (take (S n) (drop (k * S n) l)) else None.
Proof.
  revert l. induction k as [|k IH]; intros l.
  - destruct (decide (S n ≤ length l)%nat) as [Hl|Hl].
    + rewrite batch_step by done. rewrite decide_True by lia. done.
    + rewrite batch_short by lia. rewrite decide_False by lia. done.
  - destruct (decide (S n ≤ length l)%nat) as [Hl|Hl].
    + rewrite batch_step by done. simpl lookup. rewrite IH.
      rewrite length_drop, drop_drop.
      replace (S n + k * S n)%nat with (S k * S n)%nat by lia.
      destruct (decide ((k + 1) * S n ≤ length l - S n)%nat);
        [rewrite decide_True by lia|rewrite decide_False by lia]; done.
    + rewrite batch_short by lia. rewrite decide_False by lia. done.
Qed.

(** Every batch is full. *)
Lemma batch_lengths n l :
  Forall (λ w, length w = S n) (batch (S n) true l).
Proof.
  apply Forall_lookup. intros k w. rewrite batch_lookup.
  destruct (decide _) as [Hk|]; [|done]. intros [= <-].
  rewrite length_take, length_drop. lia.
Qed.

Lemma batch_count n l :
  length (batch (S n) true l) = (length l / S n)%nat.
Proof.
  set (m := length (batch (S n) true l)).
  assert (batch (S n) true l !! m = None) as Hm
    by (apply lookup_ge_None; lia).
  rewrite batch_lookup in Hm. destruct (decide _) as [|Hm']; [done|].
  assert (m * S n ≤ length l)%nat as Hle.
  { destruct m as [|m'] eqn:Em; [lia|].
    assert (is_Some (batch (S n) true l !! m')) as [w Hw]
      by (apply lookup_lt_is_Some; fold m; lia).
    rewrite batch_lookup in Hw. destruct (decide _); [lia|done]. }
  apply (Nat.div_unique _ _ _ (length l - m * S n)); lia.
Qed.

(** The batches, laid end to end, are the input without a last run that
    is shorter than a batch. *)
Lemma batch_concat n l :
  ∃ rest, l = concat (batch (S n) true l) ++ rest ∧ (length rest < S n)%nat.
Proof.
  remember (length l) as m eqn:Em. revert l Em.
  induction m as [m IH] using lt_wf_ind. intros l ->.
  destruct (decide (length l < S n)%nat) as [Hl|Hl].
  - rewrite batch_short by done. by exists l.
  - rewrite batch_step by lia.
    destruct (IH (length (drop (S n) l))) with (l := drop (S n) l)
      as (rest & Hrest & Hlen); [rewrite length_drop; lia|done|].
    exists rest. split; [|done]. simpl. rewrite <- app_assoc, <- Hrest.
    by rewrite take_drop.
Qed.
End Batch.

(** ** Supervised pairs *)

Lemma seq_to_supervised_shift {A} (w : list A) n X Y :
  length w = S n → seq_to_supervised w = (X, Y) →
  length X = n ∧ length Y = n ∧
  (∃ a b, w = X ++ [b] ∧ w = a :: Y) ∧
  ∀ i, (i + 1 < n)%nat → is_Some (Y !! i) ∧ Y !! i = X !! (i + 1)%nat.
Proof.
  intros Hw [= <- <-]. rewrite Hw.
  replace (S n - 1)%nat with n by lia.
  rewrite length_take, length_drop.
  split; [lia|]. split; [lia|]. split.
  - destruct w as [|a w]; [done|]. exists a.
    destruct (drop n (a :: w)) as [|b [|??]] eqn:Hd;
      apply (f_equal length) in Hd as Hl;
      rewrite length_drop in Hl; simpl in Hl, Hw; try lia.
    exists b. split; [|done]. by rewrite <- Hd, take_drop.
  - intros i Hi. split.
    + apply lookup_lt_is_Some. rewrite length_drop. lia.
    + rewrite lookup_drop, lookup_take_lt by lia. f_equal. lia.
Qed.

(** ** [get_dataset_and_info] *)

Section DatasetAndInfo.
Variables (seq_len : nat) (text : list N).

Local Abbreviation voc := (sorted (elements (list_to_set text : gset N))).
Local Abbreviation c2i := (dict_of (enumerate voc)).

Lemma char2id_lookup c i :
  c2i !! c = Some i ↔ 0 ≤ i ∧ voc !! (Z.to_nat i) = Some c.
Proof. apply dict_of_enumerate_lookup, vocab_NoDup. Qed.

Lemma char2id_is_Some c : c ∈ text → is_Some (c2i !! c).
Proof.
  intros Hc. apply not_eq_None_Some. rewrite dict_of_enumerate_None.
  intros Hn. apply Hn. by apply vocab_elem_of.
Qed.

(** The lookups of line 57 never raise: the function returns, and its
    result is made of the values of its local variables. *)
Lemma get_dataset_and_info_returns :
  ∃ ids,
    encode c2i text = Ok ids ∧
    get_dataset_and_info_with seq_len text =
    Ok (seq_to_supervised <$> batch (seq_len + 1) true ids,
        {| vocab := voc; char2id := c2i; id2char := voc;
           text_as_ids := ids |}).
Proof.
  destruct (encode_Ok c2i text) as (ids & Hids & _).
  { apply Forall_forall. intros c Hc. by apply char2id_is_Some. }
  exists ids. split; [done|].
  unfold get_dataset_and_info_with. by rewrite Hids.
Qed.
End DatasetAndInfo.

(** C2. For every text, the vocabulary returned by [get_dataset_and_info]
    holds exactly the characters of the text, each of them once, in
    strictly ascending order of code point; it is the only list with these
    properties, so it is determined by the set of characters of the text. *)
Theorem vocab_sorted_distinct (seq_len : nat) (text : list N) :
  ∃ ds inf,
    get_dataset_and_info_with seq_len text = Ok (ds, inf) ∧
    (∀ c, c ∈ vocab inf ↔ c ∈ text) ∧
    NoDup (vocab inf) ∧
    (∀ c, c ∈ text → length (filter (λ x, x = c) (vocab inf)) = 1%nat) ∧
    StronglySorted N.lt (vocab inf) ∧
    (∀ v, StronglySorted N.lt v → (∀ c, c ∈ v ↔ c ∈ text) → v = vocab inf).
Proof.
  destruct (get_dataset_and_info_returns seq_len text) as (ids & _ & ->).
  eexists _, _. split; [done|]. simpl.
  pose proof (vocab_elem_of text) as Hel.
  pose proof (vocab_NoDup text) as Hnd.
  pose proof (vocab_lt text) as Hlt.
  repeat split; try done; try apply Hel.
  - intros c Hc. apply NoDup_count_1; [done|]. by apply Hel.
  - intros v Hv Hvel.
    assert (StronglySorted N.le v) as Hle.
    { clear -Hv. induction Hv as [|x l _ IH Hx]; constructor; [done|].
      eapply Forall_impl; [done|]. simpl. intros; lia. }
    apply (StronglySorted_unique N.le); [done|apply sorted_le|].
    apply NoDup_Permutation; [|done|].
    + clear -Hv. induction Hv as [|x l _ IH Hx]; constructor; [|done].
      intros Hin. rewrite Forall_forall in Hx. specialize (Hx _ Hin). lia.
    + intros c. by rewrite Hvel, Hel.
Qed.




(** C10. [char2id] is a bijection from the vocabulary onto
    [0 .. vocab_size - 1] that is strictly increasing in the order of the
    characters, the id-encoded text has one id per character of the text,
    and every one of its ids lies in [0 .. vocab_size - 1] and is a valid
    index into [id2char]. *)
Theorem char2id_bijection_increasing (seq_len : nat) (text : list N) :
  ∃ ds inf,
    get_dataset_and_info_with seq_len text = Ok (ds, inf) ∧
    let vocab_size := Z.of_nat (length (vocab inf)) in
    (∀ c, is_Some (char2id inf !! c) ↔ c ∈ vocab inf) ∧
    (∀ c i, char2id inf !! c = Some i → 0 ≤ i < vocab_size) ∧
    (∀ c1 c2 i,
       char2id inf !! c1 = Some i → char2id inf !! c2 = Some i → c1 = c2) ∧
    (∀ i, 0 ≤ i < vocab_size →
       ∃ c, c ∈ vocab inf ∧ char2id inf !! c = Some i) ∧
    (∀ c1 c2 i1 i2,
       char2id inf !! c1 = Some i1 → char2id inf !! c2 = Some i2 →
       (c1 < c2)%N → i1 < i2) ∧
    Forall2 (λ c i, char2id inf !! c = Some i) text (text_as_ids inf) ∧
    Forall (λ i, 0 ≤ i < vocab_size ∧
                 ∃ c, np_getitem (id2char inf) i = Ok c)
           (text_as_ids inf).
Proof.
  destruct (get_dataset_and_info_returns seq_len text) as (ids & Henc & ->).
  eexists _, _. split; [done|]. simpl.
  pose proof (char2id_lookup text) as Hlk.
  pose proof (vocab_lt text) as Hlt.
  apply encode_Ok_inv in Henc.
  set (voc := sorted (elements (list_to_set text : gset N))) in *.
  assert (∀ c i, dict_of (enumerate voc) !! c = Some i →
                 0 ≤ i < Z.of_nat (length voc)) as Hrange.
  { intros c i [Hi Hc]%Hlk. apply lookup_lt_Some in Hc. lia. }
  split; [|split; [done|]]; [|split; [|split; [|split; [|split; [done|]]]]].
  - intros c. split.
    + intros [i [_ Hi]%Hlk]. by eapply list_elem_of_lookup_2.
    + intros [j Hj]%list_elem_of_lookup_1. exists (Z.of_nat j).
      apply Hlk. split; [lia|]. by rewrite Nat2Z.id.
  - intros c1 c2 i [_ H1]%Hlk [_ H2]%Hlk. congruence.
  - intros i Hi.
    destruct (lookup_lt_is_Some_2 voc (Z.to_nat i)) as [c Hc]; [lia|].
    exists c. split; [by eapply list_elem_of_lookup_2|].
    apply Hlk. split; [lia|done].
  - intros c1 c2 i1 i2 [Hi1 H1]%Hlk [Hi2 H2]%Hlk Hc.
    destruct (decide (i1 < i2)) as [|Hge]; [done|]. exfalso.
    destruct (decide (i1 = i2)) as [->|Hne].
    + rewrite H1 in H2. injection H2 as ->. lia.
    + pose proof (StronglySorted_lt_lookup voc _ _ _ _ Hlt H2 H1). lia.
  - apply Forall_forall. intros i Hi.
    apply (list_elem_of_lookup_1 ids) in Hi as [k Hk].
    destruct (Forall2_lookup_r _ _ _ _ _ Henc Hk) as (c & _ & Hc).
    split; [by eapply Hrange|].
    apply Hlk in Hc as [Hi Hc]. exists c. by apply np_getitem_Ok.
Qed.

(** C4. Every training example [(X, Y)] returned by
    [get_dataset_and_info] comes from one window of [SEQUENCE_LEN + 1] ids,
    [X] being the window without its last id and [Y] the window without its
    first id; both have length [SEQUENCE_LEN], and [Y[i] == X[i + 1]] at
    every index [i] for which [i + 1] is an index of [X]. *)
Theorem windows_shift_by_one (seq_len : nat) (text : list N) :
  ∃ ds inf,
    get_dataset_and_info_with seq_len text = Ok (ds, inf) ∧
    ∀ k X Y, ds !! k = Some (X, Y) →
      (∃ w a b,
         batch (seq_len + 1) true (text_as_ids inf) !! k = Some w ∧
         length w = (seq_len + 1)%nat ∧ w = X ++ [b] ∧ w = a :: Y) ∧
      length X = seq_len ∧ length Y = seq_len ∧
      ∀ i, (i + 1 < seq_len)%nat →
        is_Some (Y !! i) ∧ Y !! i = X !! (i + 1)%nat.
Proof.
  destruct (get_dataset_and_info_returns seq_len text) as (ids & _ & ->).
  eexists _, _. split; [done|]. simpl. intros k X Y Hk.
  rewrite list_lookup_fmap in Hk.
  destruct (batch (seq_len + 1) true ids !! k) as [w|] eqn:Hw; [|done].
  apply (inj Some) in Hk.
  assert (length w = S seq_len) as Hlen.
  { pose proof (batch_lengths seq_len ids) as Hall.
    rewrite Nat.add_1_r in Hw.
    by apply (Forall_lookup_1 _ _ _ _ Hall Hw). }
  destruct (seq_to_supervised_shift w seq_len X Y Hlen Hk)
    as (HX & HY & (a & b & Ha & Hb) & Hshift).
  split; [|done]. exists w, a, b. rewrite Nat.add_1_r. done.
Qed.

(** C5. The windows are the consecutive runs of [SEQUENCE_LEN + 1] ids of
    the id-encoded text: window [k] starts at offset
    [k * (SEQUENCE_LEN + 1)], every window is full, the windows laid end to
    end are the id-encoded text without a rest shorter than a window, which
    is dropped, there are [floor(L / (SEQUENCE_LEN + 1))] of them for a
    text of [L] characters, and none for a text shorter than a window. *)
Theorem windows_partition (seq_len : nat) (text : list N) :
  ∃ ds inf,
    get_dataset_and_info_with seq_len text = Ok (ds, inf) ∧
    let ids := text_as_ids inf in
    let ws := batch (seq_len + 1) true ids in
    length ids = length text ∧
    ds = seq_to_supervised <$> ws ∧
    Forall (λ w, length w = (seq_len + 1)%nat) ws ∧
    (∀ k w, ws !! k = Some w →
       w = take (seq_len + 1) (drop (k * (seq_len + 1)) ids)) ∧
    (∃ rest, ids = concat ws ++ rest ∧ (length rest < seq_len + 1)%nat) ∧
    length ws = (length text / (seq_len + 1))%nat ∧
    length ds = (length text / (seq_len + 1))%nat ∧
    ((length text < seq_len + 1)%nat → ws = [] ∧ ds = []).
Proof.
  destruct (get_dataset_and_info_returns seq_len text) as (ids & Henc & ->).
  eexists _, _. split; [done|]. simpl.
  apply encode_Ok_inv, Forall2_length in Henc.
  rewrite length_fmap, Nat.add_1_r, batch_count, Henc.
  split; [done|]. split; [done|]. split; [apply batch_lengths|].
  split; [|split; [apply batch_concat|]].
  - intros k w. rewrite batch_lookup. by destruct (decide _); intros [= <-].
  - split; [done|]. split; [done|]. intros Hshort.
    rewrite batch_short by lia. done.
Qed.

(** ** The sampling loop *)

Section SamplingLoop.
Context `{F : Framework}.
Implicit Types (w : world) (ids : list Z) (id2char : list N)
  (acc : list (list N)).

Lemma bind_run {A B} (m : M A) (k : A → M B) w :
  (m ≫= k) w = match m w with
               | (Ok a, w') => k a w'
               | (Raise e, w') => (Raise e, w')
               end.
Proof. reflexivity. Qed.

Lemma generate_text_run start_string char2id id2char num_generate w :
  generate_text start_string char2id id2char num_generate w =
  match encode char2id start_string with
  | Raise e => (Raise e, reset w)
  | Ok char_ids =>
      match sampling_loop (Z.to_nat num_generate) char_ids id2char []
              (reset w) with
      | (Ok generated_text, w') =>
          (Ok (start_string ++ concat generated_text), w')
      | (Raise e, w') => (Raise e, w')
      end
  end.
Proof.
  unfold generate_text. rewrite bind_run. simpl.
  rewrite bind_run. unfold lift at 1.
  destruct (encode char2id start_string); [|done].
  rewrite bind_run. by destruct (sampling_loop _ _ _ _ _) as [[?|?] ?].
Qed.

Lemma sample_char_run ids id2char w :
  sample_char ids id2char w =
  let out := forward (weights w) (lstm w) ids in
  match np_getitem out.2 (-1) with
  | Raise e =>
      (Raise e, {| weights := weights w; lstm := out.1; gen := gen w;
                   fed := fed w ++ [ids] |})
  | Ok Y =>
      let draw := categorical (gen w) Y in
      (np_str_getitem id2char draw.2,
       {| weights := weights w; lstm := out.1; gen := draw.1;
          fed := fed w ++ [ids] |})
  end.
Proof.
  unfold sample_char. rewrite bind_run. unfold call_model.
  destruct (forward (weights w) (lstm w) ids) as [st out].
  rewrite bind_run. unfold lift at 1. simpl.
  destruct (np_getitem out (-1)) as [Y|e]; [|done].
  rewrite bind_run. unfold random_categorical. simpl.
  by destruct (categorical (gen w) Y) as [g i].
Qed.

Lemma sampling_loop_S n ids id2char acc w :
  sampling_loop (S n) ids id2char acc w =
  match sample_char ids id2char w with
  | (Ok c, w') => sampling_loop n ids id2char (acc ++ [c]) w'
  | (Raise e, w') => (Raise e, w')
  end.
Proof. reflexivity. Qed.

(** The loop only appends to [generated_text]. *)
Lemma sampling_loop_acc n ids id2char acc w :
  sampling_loop n ids id2char acc w =
  match sampling_loop n ids id2char [] w with
  | (Ok g, w') => (Ok (acc ++ g), w')
  | (Raise e, w') => (Raise e, w')
  end.
Proof.
  revert acc w. induction n as [|n IH]; intros acc w.
  - simpl. by rewrite app_nil_r.
  - rewrite !sampling_loop_S.
    destruct (sample_char ids id2char w) as [[c|e] w1]; [|done].
    rewrite (IH (acc ++ [c])), (IH ([] ++ [c])).
    destruct (sampling_loop n ids id2char [] w1) as [[g|e] w2]; [|done].
    by rewrite <- app_assoc.
Qed.

(** One more iteration is one more character at the end. *)
Lemma sampling_loop_snoc n ids id2char w :
  sampling_loop (S n) ids id2char [] w =
  match sampling_loop n ids id2char [] w with
  | (Ok g, w') =>
      match sample_char ids id2char w' with
      | (Ok c, w'') => (Ok (g ++ [c]), w'')
      | (Raise e, w'') => (Raise e, w'')
      end
  | (Raise e, w') => (Raise e, w')
  end.
Proof.
  revert w. induction n as [|n IH]; intros w.
  - rewrite sampling_loop_S. simpl.
    by destruct (sample_char ids id2char w) as [[c|e] w1].
  - rewrite sampling_loop_S. rewrite (sampling_loop_S n).
    destruct (sample_char ids id2char w) as [[c|e] w1]; [|done].
    rewrite (sampling_loop_acc (S n)), (sampling_loop_acc n), IH.
    destruct (sampling_loop n ids id2char [] w1) as [[g|e] w2]; [|done].
    destruct (sample_char ids id2char w2) as [[c'|e] w3]; [|done].
    by rewrite <- app_assoc.
Qed.

(** *** What the model is fed *)

Lemma sample_char_fed ids id2char w r w' :
  sample_char ids id2char w = (r, w') →
  fed w' = fed w ++ [ids] ∧ weights w' = weights w.
Proof.
  rewrite sample_char_run. simpl.
  by destruct (np_getitem _ (-1)); intros [= <- <-].
Qed.

Lemma sampling_loop_fed n ids id2char acc w r w' :
  sampling_loop n ids id2char acc w = (r, w') →
  weights w' = weights w ∧
  ∃ m, (m ≤ n)%nat ∧ fed w' = fed w ++ replicate m ids ∧
       (is_Ok r → m = n).
Proof.
  revert acc w. induction n as [|n IH]; intros acc w.
  - intros [= <- <-]. split; [done|]. exists 0%nat.
    by rewrite app_nil_r.
  - rewrite sampling_loop_S.
    destruct (sample_char ids id2char w) as [[c|e] w1] eqn:Hc;
      apply sample_char_fed in Hc as [Hfed Hwt].
    + intros (Hwt' & m & Hm & Hfed' & Hok)%IH.
      split; [congruence|]. exists (S m). split; [lia|].
      split; [|intros ?; f_equal; auto].
      rewrite Hfed', Hfed, <- app_assoc. done.
    + intros [= <- <-]. split; [done|]. exists 1%nat.
      split; [lia|]. split; [done|]. by intros [? ?].
Qed.
End SamplingLoop.

Section SamplingRuns.
Context `{F : Framework}.
Implicit Types (w : world) (ids : list Z) (id2char : list N)
  (acc : list (list N)).

(** *** Runs that do not raise *)

Lemma sample_char_Ok ids id2char w :
  well_formed (length id2char) → id2char ≠ [] → ids ≠ [] →
  ∃ it w', sample_char ids id2char w = (Ok it, w').
Proof.
  intros [Hpos Hsc Hdraw] Hvoc Hids.
  rewrite sample_char_run.
  specialize (Hpos (weights w) (lstm w) ids).
  specialize (Hsc (weights w) (lstm w) ids).
  destruct (forward (weights w) (lstm w) ids) as [st out]. simpl in *.
  rewrite np_getitem_last.
  destruct out as [|Y out _] using rev_ind.
  { destruct ids; simpl in *; [done|lia]. }
  rewrite last_snoc. rewrite Forall_app, Forall_singleton in Hsc.
  destruct Hsc as [_ HY].
  assert (Y ≠ []) as HYne by (intros ->; by destruct id2char).
  specialize (Hdraw (gen w) Y HYne).
  destruct (categorical (gen w) Y) as [g i]. simpl in *.
  destruct (lookup_lt_is_Some_2 id2char (Z.to_nat i)) as [c Hc]; [lia|].
  exists (U1_item c). eexists. f_equal. by apply np_str_getitem_Ok; [lia|].
Qed.

(** With a well-formed model the loop returns; it has appended one
    string per iteration, and the string at position [k] is the one
    sampled in the world that [k] iterations have left. *)
Lemma sampling_loop_Ok n ids id2char w :
  well_formed (length id2char) → id2char ≠ [] → ids ≠ [] →
  ∃ g w', sampling_loop n ids id2char [] w = (Ok g, w') ∧
    length g = n ∧
    ∀ k c, g !! k = Some c →
      ∃ wk wk', sampling_loop k ids id2char [] w = (Ok (take k g), wk) ∧
                sample_char ids id2char wk = (Ok c, wk').
Proof.
  intros Hwf Hvoc Hids. induction n as [|n (g & w' & Hrun & Hlen & Hord)].
  - exists [], w. by repeat split.
  - destruct (sample_char_Ok ids id2char w' Hwf Hvoc Hids) as (c & w'' & Hc).
    exists (g ++ [c]), w''. rewrite sampling_loop_snoc, Hrun, Hc.
    split; [done|]. split; [rewrite length_app; simpl; lia|].
    intros k c' Hk. destruct (decide (k < length g)%nat) as [Hlt|Hge].
    + rewrite lookup_app_l in Hk by done.
      rewrite take_app_le by lia. by apply Hord.
    + apply lookup_lt_Some in Hk as Hk'.
      rewrite length_app in Hk'. simpl in Hk'.
      assert (k = length g) as -> by lia.
      rewrite list_lookup_middle in Hk by done. injection Hk as <-.
      rewrite take_app_length, Hlen. by exists w', w''.
Qed.

(** Whatever the model, the strings that a returning loop has appended
    are entries of [id2char] as they read. *)
Lemma sample_char_item ids id2char w it w' :
  sample_char ids id2char w = (Ok it, w') →
  ∃ c, c ∈ id2char ∧ it = U1_item c.
Proof.
  rewrite sample_char_run. simpl.
  destruct (np_getitem _ (-1)) as [Y|e]; [|done].
  intros [= Hc _]. by eapply np_str_getitem_inv.
Qed.

Lemma sampling_loop_items n ids id2char acc w s w' :
  sampling_loop n ids id2char acc w = (Ok s, w') →
  ∃ g, s = acc ++ g ∧ length g = n ∧
       Forall (λ it, ∃ c, c ∈ id2char ∧ it = U1_item c) g.
Proof.
  revert acc w. induction n as [|n IH]; intros acc w.
  - intros [= <- <-]. exists []. by rewrite app_nil_r.
  - rewrite sampling_loop_S.
    destruct (sample_char ids id2char w) as [[it|e] w1] eqn:Hc; [|done].
    apply sample_char_item in Hc.
    intros (g & -> & Hlen & Hg)%IH. exists (it :: g).
    rewrite <- app_assoc. split; [done|]. split; [simpl; lia|].
    by constructor.
Qed.

(** *** Runs from worlds that differ in what the loop does not read *)

Lemma same_model_reset w1 w2 :
  weights w1 = weights w2 → gen w1 = gen w2 →
  same_model (reset w1) (reset w2).
Proof. by intros ??. Qed.

Lemma sample_char_same ids id2char w1 w2 :
  same_model w1 w2 →
  (sample_char ids id2char w1).1 = (sample_char ids id2char w2).1 ∧
  same_model (sample_char ids id2char w1).2 (sample_char ids id2char w2).2.
Proof.
  intros (Hwt & Hst & Hg). rewrite !sample_char_run, Hwt, Hst, Hg.
  unfold same_model. simpl. by destruct (np_getitem _ (-1)).
Qed.

Lemma sampling_loop_same n ids id2char acc w1 w2 :
  same_model w1 w2 →
  (sampling_loop n ids id2char acc w1).1
  = (sampling_loop n ids id2char acc w2).1 ∧
  same_model (sampling_loop n ids id2char acc w1).2
             (sampling_loop n ids id2char acc w2).2.
Proof.
  revert acc w1 w2. induction n as [|n IH]; intros acc w1 w2 Hsame; [done|].
  rewrite !sampling_loop_S.
  destruct (sample_char_same ids id2char w1 w2 Hsame) as [Hr Hw].
  destruct (sample_char ids id2char w1) as [r1 w1'].
  destruct (sample_char ids id2char w2) as [r2 w2'].
  simpl in Hr, Hw. subst r2. destruct r1 as [c|e]; [|done].
  by apply IH.
Qed.
End SamplingRuns.

(** *** Exceptions of a run *)

Lemma np_getitem_Raise {A} (a : list A) i e :
  np_getitem a i = Raise e → e = IndexError.
Proof.
  unfold np_getitem. destruct (_ && _); [|congruence].
  destruct (a !! _); congruence.
Qed.

Section SamplingExceptions.
Context `{F : Framework}.

Lemma sample_char_Raise ids (id2char : list N) w e :
  (sample_char ids id2char w).1 = Raise e → e = IndexError.
Proof.
  rewrite sample_char_run. simpl.
  destruct (np_getitem _ (-1)) as [Y|e'] eqn:HY; simpl.
  - apply np_str_getitem_Raise.
  - intros [= <-]. by apply np_getitem_Raise in HY.
Qed.

Lemma sampling_loop_Raise n ids (id2char : list N) acc w e :
  (sampling_loop n ids id2char acc w).1 = Raise e → e = IndexError.
Proof.
  revert acc w. induction n as [|n IH]; intros acc w; [done|].
  rewrite sampling_loop_S.
  pose proof (sample_char_Raise ids id2char w) as Hc.
  destruct (sample_char ids id2char w) as [[c|e'] w']; [apply IH|].
  simpl in *. intros [= <-]. by apply Hc.
Qed.

(** Every call of the model in [generate_text] reads the encoded
    [start_string]. *)
Lemma generate_text_fed start_string char2id id2char num_generate w s w' :
  generate_text start_string char2id id2char num_generate w = (Ok s, w') →
  ∃ char_ids, encode char2id start_string = Ok char_ids ∧
    fed w' = fed w ++ replicate (Z.to_nat num_generate) char_ids.
Proof.
  rewrite generate_text_run.
  destruct (encode char2id start_string) as [ids|]; [|done].
  destruct (sampling_loop _ _ _ _ _) as [[g|e] w1] eqn:Hrun; [|done].
  intros [= _ <-]. exists ids. split; [done|].
  apply sampling_loop_fed in Hrun as (_ & m & _ & -> & Hm).
  rewrite Hm by by eexists. done.
Qed.
End SamplingExceptions.

(** ** The small framework *)

Lemma toy_well_formed : @well_formed toy 3.
Proof.
  split; simpl; unfold toy_forward, toy_categorical; simpl.
  - intros wt st ids. apply length_fmap.
  - intros wt st ids. apply Forall_fmap, Forall_forall. by intros.
  - intros g Y HY. apply Z.mod_pos_bound.
    destruct Y; [done|simpl; lia].
Qed.

(** ** The claims about [generate_text] *)

(** C1. On the seed [cb] with four characters requested, every one of the
    four calls of the model reads the encoded seed [[2; 1]]: [char_ids] is
    not assigned inside the loop. The loop the claim and the comment above
    line 96 describe reads [[2; 1]], then the ids drawn, [[0]], [[2]],
    [[0]], and returns another string. *)
Theorem generate_text_feeds_seed_again :
  let w := toy_world 7 5 in
  let run := @generate_text toy (str_of "cb") abc_char2id abc_id2char 4 w in
  let described :=
    @generate_text_described toy (str_of "cb") abc_char2id abc_id2char 4 w in
  run.1 = Ok (str_of "cbaaaa") ∧
  @fed toy run.2 = [[2; 1]; [2; 1]; [2; 1]; [2; 1]] ∧
  described.1 = Ok (str_of "cbacaa") ∧
  @fed toy described.2 = [[2; 1]; [0]; [2]; [0]].
Proof. vm_compute. done. Qed.

(** C6, as amended. For a seed whose characters are all keys of [char2id]
    and a requested length [N >= 0]: with [N = 0] the seed is returned
    unchanged; with a non-empty seed and a well-formed model over a
    non-empty [id2char] that has no entry U+0000, the seed is returned
    followed by exactly [N] characters, the one at position [k] being the
    character sampled after the [k] before it. *)
Theorem generate_text_appends `{F : Framework}
    (start_string : list N) (char2id : gmap N Z) (id2char : list N)
    (num_generate : Z) (w : world) :
  Forall (λ c, is_Some (char2id !! c)) start_string →
  0 ≤ num_generate →
  num_generate = 0 ∨
    (start_string ≠ [] ∧ id2char ≠ [] ∧ (0%N ∉ id2char) ∧
     well_formed (length id2char)) →
  ∃ char_ids generated w',
    encode char2id start_string = Ok char_ids ∧
    generate_text start_string char2id id2char num_generate w
    = (Ok (start_string ++ generated), w') ∧
    Z.of_nat (length generated) = num_generate ∧
    (num_generate = 0 →
       generate_text start_string char2id id2char num_generate w
       = (Ok start_string, reset w)) ∧
    (∀ k c, generated !! k = Some c →
       ∃ wk wk',
         generate_text start_string char2id id2char (Z.of_nat k) w
         = (Ok (start_string ++ take k generated), wk) ∧
         sample_char char_ids id2char wk = (Ok [c], wk')).
Proof.
  intros Hseed HN Hcase.
  destruct (encode_Ok char2id start_string Hseed) as (ids & Henc & Hids).
  exists ids. destruct Hcase as [->|(Hne & Hvoc & Hnul & Hwf)].
  - exists [], (reset w). rewrite generate_text_run, Henc. simpl.
    rewrite app_nil_r. by repeat split.
  - assert (ids ≠ []) as Hids'.
    { apply Forall2_length in Hids. intros ->. by destruct start_string. }
    destruct (sampling_loop_Ok (Z.to_nat num_generate) ids id2char (reset w)
                Hwf Hvoc Hids') as (items & w' & Hrun & Hlen & Hord).
    destruct (sampling_loop_items _ _ _ _ _ _ _ Hrun) as (its & Hits & _ & Hall).
    simpl in Hits. subst its.
    destruct (U1_items_concat id2char items Hall) as (_ & _ & Heq).
    specialize (Heq Hnul). set (g := concat items) in *.
    assert (length g = Z.to_nat num_generate) as Hg.
    { rewrite <- Hlen. rewrite Heq at 1. by rewrite length_fmap. }
    exists g, w'. rewrite generate_text_run, Henc, Hrun.
    split; [done|]. split; [done|]. split; [lia|]. split.
    + intros ->. simpl in Hlen. apply length_zero_iff_nil in Hlen.
      subst items. simpl in Hrun. injection Hrun as <-.
      by rewrite app_nil_r.
    + intros k c Hk.
      assert (items !! k = Some [c]) as Hk'
        by (by rewrite Heq, list_lookup_fmap, Hk).
      destruct (Hord k [c] Hk') as (wk & wk' & Hk1 & Hk2).
      exists wk, wk'. split; [|done].
      rewrite generate_text_run, Henc, Nat2Z.id, Hk1.
      by rewrite Heq, <- fmap_take, concat_singletons.
Qed.

(** C7. If some character of the seed is not a key of [char2id], then
    [generate_text] raises [KeyError] for a character of the seed, having
    reset the recurrent state and nothing else: the model has not been
    called and nothing has been drawn. If every character of the seed is a
    key, the encoding returns one id per character and [generate_text]
    raises no [KeyError]. *)
Theorem generate_text_unknown_char `{F : Framework}
    (start_string : list N) (char2id : gmap N Z) (id2char : list N)
    (num_generate : Z) (w : world) :
  (¬ Forall (λ c, is_Some (char2id !! c)) start_string →
     ∃ c, c ∈ start_string ∧ char2id !! c = None ∧
       generate_text start_string char2id id2char num_generate w
       = (Raise (KeyError c), reset w) ∧
       fed (reset w) = fed w ∧ gen (reset w) = gen w) ∧
  (Forall (λ c, is_Some (char2id !! c)) start_string →
     (∃ char_ids, encode char2id start_string = Ok char_ids ∧
        length char_ids = length start_string) ∧
     ∀ c, (generate_text start_string char2id id2char num_generate w).1
          ≠ Raise (KeyError c)).
Proof.
  split.
  - intros (pre & c & post & -> & Hpre & Hc)%first_missing.
    exists c. split; [set_solver|]. split; [done|].
    rewrite generate_text_run, (encode_Raise _ _ _ _ Hpre Hc). done.
  - intros (ids & Henc & Hids)%encode_Ok. split.
    + exists ids. split; [done|]. symmetry. by eapply Forall2_length.
    + intros c. rewrite generate_text_run, Henc.
      pose proof (sampling_loop_Raise (Z.to_nat num_generate) ids id2char []
                    (reset w)) as Hr.
      destruct (sampling_loop _ _ _ _ _) as [[g|e] w']; simpl in *; [done|].
      intros [= ->]. by specialize (Hr _ eq_refl).
Qed.

(** C9. Two runs of [generate_text] on the same seed string, mappings and
    length, from worlds with the same weights and the same state of the
    random generator, return the same string (or raise the same exception)
    and leave the model and the generator in the same state, whatever the
    recurrent state and the history of calls were before. *)
Theorem generate_text_deterministic `{F : Framework}
    (start_string : list N) (char2id : gmap N Z) (id2char : list N)
    (num_generate : Z) (w1 w2 : world) :
  weights w1 = weights w2 → gen w1 = gen w2 →
  (generate_text start_string char2id id2char num_generate w1).1
  = (generate_text start_string char2id id2char num_generate w2).1 ∧
  same_model
    (generate_text start_string char2id id2char num_generate w1).2
    (generate_text start_string char2id id2char num_generate w2).2.
Proof.
  intros Hwt Hg. rewrite !generate_text_run.
  pose proof (same_model_reset w1 w2 Hwt Hg) as Hsame.
  destruct (encode char2id start_string) as [ids|e]; [|done].
  destruct (sampling_loop_same (Z.to_nat num_generate) ids id2char []
              _ _ Hsame) as [Hr Hw].
  destruct (sampling_loop _ _ _ _ (reset w1)) as [r1 w1'].
  destruct (sampling_loop _ _ _ _ (reset w2)) as [r2 w2'].
  simpl in Hr, Hw. subst r2. by destruct r1.
Qed.

Lemma abc_no_nul : 0%N ∉ abc_id2char.
Proof.
  unfold abc_id2char. simpl. rewrite !elem_of_cons, elem_of_nil.
  intros [?|[?|[?|?]]]; done.
Qed.

Lemma generate_text_appends_witness :
  ∃ generated w',
    @generate_text toy (str_of "cb") abc_char2id abc_id2char 4 (toy_world 7 5)
    = (Ok (str_of "cb" ++ generated), w') ∧
    Z.of_nat (length generated) = 4.
Proof.
  destruct (@generate_text_appends toy (str_of "cb") abc_char2id abc_id2char
              4 (toy_world 7 5)) as (ids & g & w' & _ & Hrun & Hlen & _).
  - repeat constructor; by eexists.
  - lia.
  - right. split; [done|]. split; [done|].
    split; [apply abc_no_nul|apply toy_well_formed].
  - exists g, w'. split; [exact Hrun|exact Hlen].
Defined.

(** Two runs that do not return the seed followed by [N] characters. The
    empty seed has no character outside the vocabulary, the model has no
    position to score, and [[:, -1]] raises in the first iteration. With a
    vocabulary that holds U+0000, the draw of its id appends the empty
    string: three iterations after the seed [a] return [aab]. *)
Lemma generate_text_not_appends :
  (Forall (λ c, is_Some (abc_char2id !! c)) (str_of "") ∧
   @well_formed toy (length abc_id2char) ∧
   (@generate_text toy (str_of "") abc_char2id abc_id2char 1
      (toy_world 7 5)).1 = Raise IndexError) ∧
  (Forall (λ c, is_Some (nul_char2id !! c)) (str_of "a") ∧
   @well_formed toy (length nul_id2char) ∧
   (@generate_text toy (str_of "a") nul_char2id nul_id2char 3
      (toy_world 7 0)).1 = Ok (str_of "aab")).
Proof.
  split.
  - split; [constructor|]. split; [apply toy_well_formed|]. by vm_compute.
  - split; [repeat constructor; by eexists|].
    split; [apply toy_well_formed|]. by vm_compute.
Qed.

Lemma generate_text_unknown_char_witness :
  (∃ c, c ∈ str_of "ax" ∧ abc_char2id !! c = None ∧
     @generate_text toy (str_of "ax") abc_char2id abc_id2char 2
       (toy_world 7 5)
     = (Raise (KeyError c), reset (toy_world 7 5)) ∧
     fed (reset (toy_world 7 5)) = fed (toy_world 7 5) ∧
     gen (reset (toy_world 7 5)) = gen (toy_world 7 5)) ∧
  (∃ char_ids, encode abc_char2id (str_of "ab") = Ok char_ids ∧
     length char_ids = length (str_of "ab")).
Proof.
  split.
  - apply (@generate_text_unknown_char toy).
    intros H. apply Forall_cons in H as [_ H].
    apply Forall_cons in H as [[i Hi] _]. vm_compute in Hi. discriminate.
  - apply (@generate_text_unknown_char toy (str_of "ab") abc_char2id
             abc_id2char 2 (toy_world 7 5)).
    repeat constructor; by eexists.
Defined.

Lemma generate_text_deterministic_witness :
  let w1 := toy_world 7 5 in
  let w2 : @world toy :=
    {| weights := 0 : @Weights toy; lstm := 100 : @State toy;
       gen := 5 : @Rng toy; fed := [[9]] |} in
  (@generate_text toy (str_of "cb") abc_char2id abc_id2char 4 w1).1
  = (@generate_text toy (str_of "cb") abc_char2id abc_id2char 4 w2).1.
Proof.
  intros w1 w2.
  apply (@generate_text_deterministic toy (str_of "cb") abc_char2id
           abc_id2char 4 w1 w2); reflexivity.
Defined.

(** ** The corpus [abcabcabc] with [SEQUENCE_LEN = 3] *)

(** The run does not return the single window [[0; 1; 2; 0]]. *)
Lemma abc_not_one_window :
  ¬ ∃ ds inf,
      get_dataset_and_info_with 3 (str_of "abcabcabc") = Ok (ds, inf) ∧
      batch (3 + 1) true (text_as_ids inf) = [[0; 1; 2; 0]] ∧
      ds = [([0; 1; 2], [1; 2; 0])].
Proof.
  intros (ds & inf & Hrun & _ & ->). vm_compute in Hrun. discriminate.
Qed.

(** C8, as amended. On the text [abcabcabc] with [SEQUENCE_LEN = 3] the
    vocabulary is [a], [b], [c] with ids 0, 1 and 2, the id-encoded text is
    [[0;1;2;0;1;2;0;1;2]], and there are two windows of length 4:
    [[0;1;2;0]], split into [X = [0;1;2]] and [Y = [1;2;0]], and
    [[1;2;0;1]], split into [X = [1;2;0]] and [Y = [2;0;1]]; the last id,
    [2], is dropped. *)
Theorem abc_two_windows :
  ∃ ds inf,
    get_dataset_and_info_with 3 (str_of "abcabcabc") = Ok (ds, inf) ∧
    vocab inf = str_of "abc" ∧
    id2char inf = str_of "abc" ∧
    char2id inf = <[99%N := 2]> (<[98%N := 1]> (<[97%N := 0]> ∅)) ∧
    text_as_ids inf = [0; 1; 2; 0; 1; 2; 0; 1; 2] ∧
    batch (3 + 1) true (text_as_ids inf) = [[0; 1; 2; 0]; [1; 2; 0; 1]] ∧
    ds = [([0; 1; 2], [1; 2; 0]); ([1; 2; 0], [2; 0; 1])] ∧
    text_as_ids inf = concat (batch (3 + 1) true (text_as_ids inf)) ++ [2].
Proof.
  destruct (get_dataset_and_info_returns 3 (str_of "abcabcabc"))
    as (ids & Henc & Hrun).
  vm_compute in Henc. injection Henc as <-.
  eexists _, _. split; [exact Hrun|]. simpl.
  repeat split; vm_compute; reflexivity.
Qed.

(** ** Further runs *)

Example np_getitem_from_end : np_getitem (str_of "abc") (-1) = Ok 99%N.
Proof. reflexivity. Qed.

Example np_getitem_out_of_range :
  np_getitem (str_of "abc") 3 = Raise IndexError ∧
  np_getitem (str_of "abc") (-4) = Raise IndexError.
Proof. split; reflexivity. Qed.

Example batch_keeps_rest :
  batch 4 false [0; 1; 2; 0; 1; 2; 0; 1; 2]
  = [[0; 1; 2; 0]; [1; 2; 0; 1]; [2]].
Proof. reflexivity. Qed.

(** With the script's [SEQUENCE_LEN = 100] a text of nine characters gives
    no training example. *)
Example abc_no_window :
  ∃ inf, get_dataset_and_info (str_of "abcabcabc") = Ok ([], inf).
Proof. eexists. vm_compute. reflexivity. Qed.

Example generate_text_zero :
  (@generate_text toy (str_of "cb") abc_char2id abc_id2char 0
     (toy_world 7 5)).1 = Ok (str_of "cb").
Proof. vm_compute. reflexivity. Qed.

Example generate_text_negative :
  (@generate_text toy (str_of "cb") abc_char2id abc_id2char (-2)
     (toy_world 7 5)).1 = Ok (str_of "cb").
Proof. vm_compute. reflexivity. Qed.

(** * Further properties *)

(** ** The id-encoded text and the examples *)

(** Every id of the encoding indexes, in the array of the sorted
    vocabulary, the entry of the character it encodes. *)
Lemma encode_vocab_decode (text s : list N) ids :
  encode (dict_of (enumerate (sorted (elements (list_to_set text : gset N)))))
    s = Ok ids →
  Forall2
    (λ c i,
       np_str_getitem
         (np_array (sorted (elements (list_to_set text : gset N)))) i
       = Ok (U1_item c)) s ids.
Proof.
  intros Henc%encode_Ok_inv. eapply Forall2_impl; [done|].
  simpl. intros c i [Hi Hc]%char2id_lookup. by apply np_str_getitem_Ok.
Qed.

(** The examples are the full windows, split. *)
Lemma dataset_example_lookup (seq_len : nat) (ids : list Z) k X Y :
  (seq_to_supervised <$> batch (seq_len + 1) true ids) !! k = Some (X, Y) →
  ((k + 1) * (seq_len + 1) ≤ length ids)%nat ∧
  X = take seq_len (drop (k * (seq_len + 1)) ids) ∧
  Y = take seq_len (drop (k * (seq_len + 1) + 1) ids).
Proof.
  rewrite list_lookup_fmap, Nat.add_1_r, batch_lookup.
  destruct (decide _) as [Hk|]; [|done]. simpl. intros [= <- <-].
  split; [done|].
  rewrite length_take, length_drop.
  replace (S seq_len `min` (length ids - k * S seq_len) - 1)%nat
    with seq_len by lia.
  rewrite take_take.
  replace (seq_len `min` S seq_len)%nat with seq_len by lia.
  split; [done|].
  change (S seq_len) with (1 + seq_len)%nat at 2.
  by rewrite <- take_drop_commute, drop_drop.
Qed.

(** X1. Decoding the id-encoded text through [id2char], id by id, gives the
    text back but for U+0000: the two have the same length, and
    [id2char[text_as_ids[p]]] is the one-character string [text[p]],
    except where [text[p]] is U+0000, for which it is the empty string. *)
Theorem text_as_ids_decodes (seq_len : nat) (text : list N) :
  ∃ ds inf,
    get_dataset_and_info_with seq_len text = Ok (ds, inf) ∧
    length (text_as_ids inf) = length text ∧
    Forall2 (λ c i, np_str_getitem (id2char inf) i
                    = Ok (if decide (c = 0%N) then [] else [c]))
            text (text_as_ids inf).
Proof.
  destruct (get_dataset_and_info_returns seq_len text) as (ids & Henc & ->).
  eexists _, _. split; [done|]. simpl.
  apply encode_vocab_decode in Henc. split; [|done].
  symmetry. by eapply Forall2_length.
Qed.

(** X2. Every target is the next character: in example [k], the input id
    at position [i] is the id that [char2id] gives the character of the
    text at offset [k * (SEQUENCE_LEN + 1) + i], and the target id at
    position [i] the id of the character right after it. *)
Theorem example_targets_next_char (seq_len : nat) (text : list N)
    ds inf (k i : nat) (X Y : list Z) :
  get_dataset_and_info_with seq_len text = Ok (ds, inf) →
  ds !! k = Some (X, Y) →
  (i < seq_len)%nat →
  ∃ x y cx cy,
    X !! i = Some x ∧ Y !! i = Some y ∧
    text !! (k * (seq_len + 1) + i)%nat = Some cx ∧
    text !! (k * (seq_len + 1) + i + 1)%nat = Some cy ∧
    char2id inf !! cx = Some x ∧
    char2id inf !! cy = Some y.
Proof.
  destruct (get_dataset_and_info_returns seq_len text) as (ids & Henc & ->).
  intros [= <- <-] Hk Hi. simpl.
  apply dataset_example_lookup in Hk as (Hlen & -> & ->).
  apply encode_Ok_inv in Henc.
  destruct (lookup_lt_is_Some_2 ids (k * (seq_len + 1) + i)) as [x Hx];
    [lia|].
  destruct (lookup_lt_is_Some_2 ids (k * (seq_len + 1) + i + 1)) as [y Hy];
    [lia|].
  destruct (Forall2_lookup_r _ _ _ _ _ Henc Hx) as (cx & Hcx & Hdx).
  destruct (Forall2_lookup_r _ _ _ _ _ Henc Hy) as (cy & Hcy & Hdy).
  exists x, y, cx, cy.
  rewrite !lookup_take_lt, !lookup_drop by done.
  split; [done|]. split; [by rewrite <- Hy; f_equal; lia|]. done.
Qed.

Lemma example_targets_next_char_witness :
  ∃ x y cx cy,
    [1; 2; 0] !! 2%nat = Some x ∧ [2; 0; 1] !! 2%nat = Some y ∧
    str_of "abcabcabc" !! 6%nat = Some cx ∧
    str_of "abcabcabc" !! 7%nat = Some cy ∧
    abc_char2id !! cx = Some x ∧
    abc_char2id !! cy = Some y.
Proof.
  apply (example_targets_next_char 3 (str_of "abcabcabc")
           [([0; 1; 2], [1; 2; 0]); ([1; 2; 0], [2; 0; 1])]
           {| vocab := str_of "abc"; char2id := abc_char2id;
              id2char := str_of "abc";
              text_as_ids := [0; 1; 2; 0; 1; 2; 0; 1; 2] |} 1 2
           [1; 2; 0] [2; 0; 1]).
  - vm_compute. reflexivity.
  - reflexivity.
  - lia.
Defined.

(** ** The vocabulary as a function of the characters of the text *)

(** X3. The vocabulary and the two mappings depend on the text only
    through the set of its characters: two texts with the same characters,
    in whatever order and number, get the same [vocab], [char2id] and
    [id2char]. *)
Theorem vocab_of_same_chars (seq_len seq_len' : nat) (text text' : list N) :
  (∀ c, c ∈ text ↔ c ∈ text') →
  ∃ ds inf ds' inf',
    get_dataset_and_info_with seq_len text = Ok (ds, inf) ∧
    get_dataset_and_info_with seq_len' text' = Ok (ds', inf') ∧
    vocab inf = vocab inf' ∧ char2id inf = char2id inf' ∧
    id2char inf = id2char inf'.
Proof.
  intros Hsame.
  destruct (get_dataset_and_info_returns seq_len text) as (ids & _ & ->).
  destruct (get_dataset_and_info_returns seq_len' text') as (ids' & _ & ->).
  eexists _, _, _, _. split; [done|]. split; [done|]. simpl.
  assert ((list_to_set text : gset N) = list_to_set text') as ->; [|done].
  apply set_eq. intros c. by rewrite !elem_of_list_to_set.
Qed.

Lemma vocab_of_same_chars_witness :
  ∃ ds inf ds' inf',
    get_dataset_and_info_with 3 (str_of "abcabcabc") = Ok (ds, inf) ∧
    get_dataset_and_info_with 100 (str_of "ccba") = Ok (ds', inf') ∧
    vocab inf = vocab inf' ∧ char2id inf = char2id inf' ∧
    id2char inf = id2char inf'.
Proof.
  apply vocab_of_same_chars. intros c. vm_compute str_of.
  rewrite !elem_of_cons, !elem_of_nil. tauto.
Defined.

(** X4. The vocabulary has as many entries as the text has distinct
    characters, at most one per character of the text; [char2id] has one
    key per entry; and an empty text is not refused: the function returns,
    with an empty vocabulary, no id and no example. *)
Theorem vocab_size_distinct (seq_len : nat) (text : list N) :
  ∃ ds inf,
    get_dataset_and_info_with seq_len text = Ok (ds, inf) ∧
    length (vocab inf) = size (list_to_set text : gset N) ∧
    (length (vocab inf) ≤ length text)%nat ∧
    size (char2id inf) = length (vocab inf) ∧
    (vocab inf = [] ↔ text = []) ∧
    (text = [] → char2id inf = ∅ ∧ text_as_ids inf = [] ∧ ds = []).
Proof.
  destruct (get_dataset_and_info_returns seq_len text) as (ids & Henc & ->).
  eexists _, _. split; [done|]. simpl.
  pose proof (vocab_NoDup text) as Hnd.
  pose proof (vocab_elem_of text) as Hel.
  set (voc := sorted (elements (list_to_set text : gset N))) in *.
  assert (length voc = size (list_to_set text : gset N)) as Hsize.
  { unfold voc. by rewrite sorted_Permutation. }
  assert (voc = [] ↔ text = []) as Hempty.
  { split.
    - intros Hv. destruct text as [|c l]; [done|].
      assert (c ∈ voc) as Hc by (apply Hel; left).
      rewrite Hv in Hc. by apply elem_of_nil in Hc.
    - intros ->. destruct voc as [|c l]; [done|].
      assert (c ∈ []) as Hc by (apply Hel; left).
      by apply elem_of_nil in Hc. }
  split; [done|]. split; [|split; [|split; [done|]]].
  - rewrite Hsize. clear. induction text as [|c l IH]; simpl; [done|].
    destruct (decide (c ∈ (list_to_set l : gset N))).
    + rewrite subseteq_union_1_L by set_solver. lia.
    + rewrite size_union by set_solver. rewrite size_singleton. lia.
  - rewrite <- size_dom.
    assert (dom (dict_of (enumerate voc)) = (list_to_set voc : gset N)) as ->.
    { apply set_eq. intros c. rewrite elem_of_dom, elem_of_list_to_set.
      split.
      - intros Hsome. destruct (decide (c ∈ voc)) as [|Hn]; [done|].
        apply dict_of_enumerate_None in Hn.
        rewrite Hn in Hsome. by destruct Hsome.
      - intros Hc. apply not_eq_None_Some.
        by intros Hn%dict_of_enumerate_None. }
    by apply size_list_to_set.
  - intros Ht. rewrite (proj2 Hempty Ht). subst text.
    simpl in Henc. injection Henc as <-.
    rewrite Nat.add_1_r, batch_short by (simpl; lia). done.
Qed.

(** ** The training batches *)

Lemma batch_elem_of {A} n (l bb : list A) x :
  bb ∈ batch (S n) true l → x ∈ bb → x ∈ l.
Proof.
  intros Hbb Hx. destruct (batch_concat n l) as (rest & Hl & _).
  rewrite Hl. apply elem_of_app. left.
  apply list_elem_of_In, in_concat. exists bb.
  by rewrite <- !list_elem_of_In.
Qed.

Lemma dataset_example_lengths (seq_len : nat) (ids : list Z) X Y :
  (X, Y) ∈ seq_to_supervised <$> batch (seq_len + 1) true ids →
  length X = seq_len ∧ length Y = seq_len.
Proof.
  rewrite Nat.add_1_r. intros (w & Hw & Hin)%list_elem_of_fmap.
  pose proof (batch_lengths seq_len ids) as Hall.
  rewrite Forall_forall in Hall. specialize (Hall w Hin).
  symmetry in Hw.
  destruct (seq_to_supervised_shift w seq_len X Y Hall Hw) as (? & ? & _).
  done.
Qed.

(** X11. One pass over the training data of [main], for a shuffle that
    yields every example once: there are
    [floor(floor(L / (SEQUENCE_LEN + 1)) / BATCH_SIZE)] batches; each is a
    pair of [BATCH_SIZE] inputs and [BATCH_SIZE] targets, all of length
    [SEQUENCE_LEN]; and the rows of the batches are the examples of the
    dataset, each used once, but for fewer than [BATCH_SIZE] examples that
    are left out of the pass. *)
Theorem main_dataset_batches
    (shuffle : nat → list (list Z * list Z) → list (list Z * list Z))
    (seq_len buffer_size b : nat) (text : list N) :
  (∀ l, shuffle buffer_size l ≡ₚ l) →
  ∃ ds batches inf,
    get_dataset_and_info_with seq_len text = Ok (ds, inf) ∧
    main_dataset_with shuffle seq_len buffer_size (S b) text
    = Ok (batches, inf) ∧
    length batches = (length text / (seq_len + 1) / S b)%nat ∧
    Forall (λ XY, length XY.1 = S b ∧ length XY.2 = S b ∧
                  Forall (λ X, length X = seq_len) XY.1 ∧
                  Forall (λ Y, length Y = seq_len) XY.2) batches ∧
    ∃ rest,
      ds ≡ₚ concat ((λ XY, zip XY.1 XY.2) <$> batches) ++ rest ∧
      (length rest < S b)%nat.
Proof.
  intros Hperm.
  destruct (get_dataset_and_info_returns seq_len text) as (ids & Henc & Hrun).
  unfold main_dataset_with. rewrite Hrun.
  set (ds := seq_to_supervised <$> batch (seq_len + 1) true ids).
  eexists ds, _, _. split; [done|]. split; [done|].
  unfold batch_pairs. set (sh := shuffle buffer_size ds).
  assert (sh ≡ₚ ds) as Hsh by apply Hperm.
  split; [|split].
  - rewrite length_fmap, batch_count, Hsh. unfold ds.
    rewrite length_fmap, Nat.add_1_r, batch_count.
    apply encode_Ok_inv, Forall2_length in Henc. by rewrite Henc.
  - apply Forall_fmap, Forall_forall. intros bb Hbb. simpl.
    rewrite !length_fmap.
    pose proof (batch_lengths b sh) as Hall.
    rewrite Forall_forall in Hall. rewrite (Hall bb Hbb).
    split; [done|]. split; [done|].
    split; apply Forall_fmap, Forall_forall; intros [X Y] HXY; simpl;
      apply (batch_elem_of _ _ _ _ Hbb) in HXY; rewrite Hsh in HXY;
      by apply dataset_example_lengths in HXY as [? ?].
  - destruct (batch_concat b sh) as (rest & Hl & Hrest).
    exists rest. split; [|done]. rewrite <- Hsh.
    rewrite <- list_fmap_compose.
    rewrite (list_fmap_ext _ id (batch (S b) true sh)).
    + by rewrite list_fmap_id, <- Hl.
    + intros i bb _. simpl. apply zip_fst_snd.
Qed.

Lemma main_dataset_batches_witness :
  ∃ ds batches inf,
    get_dataset_and_info_with 3 (str_of "abcabcabc") = Ok (ds, inf) ∧
    main_dataset_with (λ _ l, reverse l) 3 BUFFER_SIZE 2 (str_of "abcabcabc")
    = Ok (batches, inf) ∧
    length batches = (length (str_of "abcabcabc") / (3 + 1) / 2)%nat ∧
    Forall (λ XY, length XY.1 = 2%nat ∧ length XY.2 = 2%nat ∧
                  Forall (λ X, length X = 3%nat) XY.1 ∧
                  Forall (λ Y, length Y = 3%nat) XY.2) batches ∧
    ∃ rest,
      ds ≡ₚ concat ((λ XY, zip XY.1 XY.2) <$> batches) ++ rest ∧
      (length rest < 2)%nat.
Proof.
  apply (main_dataset_batches (λ _ l, reverse l) 3 BUFFER_SIZE 1
           (str_of "abcabcabc")).
  intros l. apply reverse_Permutation.
Defined.

(** ** What a run of [generate_text] returns, calls and raises *)

Section GenerateTextRuns.
Context `{F : Framework}.
Implicit Types (w : world) (ids : list Z) (id2char : list N)
  (acc : list (list N)).

Lemma sampling_loop_no_iteration ids id2char acc w :
  sampling_loop 0 ids id2char acc w = (Ok acc, w).
Proof. reflexivity. Qed.
End GenerateTextRuns.

(** X5. Whenever [generate_text] returns, for any model and any sampler,
    the string returned is the seed followed by at most
    [max(num_generate, 0)] characters, each of them an entry of [id2char]
    other than U+0000 (the entry U+0000 reads as the empty string); there
    are exactly [max(num_generate, 0)] of them when [id2char] has no entry
    U+0000; and every character of the seed is a key of [char2id]. *)
Theorem generate_text_result `{F : Framework}
    (start_string : list N) (char2id : gmap N Z) (id2char : list N)
    (num_generate : Z) (w w' : world) (s : list N) :
  generate_text start_string char2id id2char num_generate w = (Ok s, w') →
  ∃ generated,
    s = start_string ++ generated ∧
    (length generated ≤ Z.to_nat num_generate)%nat ∧
    Forall (λ c, c ∈ id2char ∧ c ≠ 0%N) generated ∧
    (0%N ∉ id2char → length generated = Z.to_nat num_generate) ∧
    Forall (λ c, is_Some (char2id !! c)) start_string.
Proof.
  rewrite generate_text_run.
  destruct (encode char2id start_string) as [ids|] eqn:Henc; [|done].
  destruct (sampling_loop _ _ _ _ _) as [[items|e] w1] eqn:Hrun; [|done].
  intros [= <- <-].
  apply sampling_loop_items in Hrun as (its & -> & Hlen & Hits).
  destruct (U1_items_concat id2char its Hits) as (Hle & Hall & Heq).
  exists (concat its). simpl. split; [done|]. split; [lia|].
  split; [done|]. split.
  - intros Hnul. rewrite <- Hlen. rewrite (Heq Hnul) at 2.
    by rewrite length_fmap.
  - apply encode_Ok_inv in Henc. apply Forall_forall. intros c Hc.
    apply (list_elem_of_lookup_1 start_string) in Hc as [k Hk].
    destruct (Forall2_lookup_l _ _ _ _ _ Henc Hk) as (i & _ & Hi).
    by exists i.
Qed.

Lemma generate_text_result_witness :
  ∃ generated,
    str_of "aab" = str_of "a" ++ generated ∧
    (length generated ≤ Z.to_nat 3)%nat ∧
    Forall (λ c, c ∈ nul_id2char ∧ c ≠ 0%N) generated ∧
    (0%N ∉ nul_id2char → length generated = Z.to_nat 3) ∧
    Forall (λ c, is_Some (nul_char2id !! c)) (str_of "a").
Proof.
  eapply (@generate_text_result toy (str_of "a") nul_char2id nul_id2char 3
            (toy_world 7 0)).
  vm_compute. reflexivity.
Defined.

(** X6. [generate_text] never changes the weights. It calls the model at
    most [max(num_generate, 0)] times, exactly that often when it returns,
    and every call reads the whole encoded seed; when the encoding of the
    seed raises, the model is not called and nothing is drawn. *)
Theorem generate_text_model_calls `{F : Framework}
    (start_string : list N) (char2id : gmap N Z) (id2char : list N)
    (num_generate : Z) (w w' : world) (r : result (list N)) :
  generate_text start_string char2id id2char num_generate w = (r, w') →
  weights w' = weights w ∧
  match encode char2id start_string with
  | Raise _ => fed w' = fed w ∧ gen w' = gen w
  | Ok char_ids =>
      ∃ m, (m ≤ Z.to_nat num_generate)%nat ∧
           fed w' = fed w ++ replicate m char_ids ∧
           (is_Ok r → m = Z.to_nat num_generate)
  end.
Proof.
  rewrite generate_text_run.
  destruct (encode char2id start_string) as [ids|];
    [|by intros [= <- <-]].
  destruct (sampling_loop _ _ _ _ _) as [r1 w1] eqn:Hrun.
  apply sampling_loop_fed in Hrun as (Hwt & m & Hm & Hfed & Hok).
  intros Hr. assert (w1 = w' ∧ (is_Ok r → is_Ok r1)) as [<- Hrr].
  { destruct r1; injection Hr as <- <-; (split; [done|]).
    - intros _. by eexists.
    - by intros [? ?]. }
  split; [done|]. exists m. split; [done|]. split; [done|]. auto.
Qed.

Lemma generate_text_model_calls_witness :
  ∃ w', @generate_text toy (str_of "cb") abc_char2id abc_id2char 3
          (toy_world 7 5) = (Ok (str_of "cbaaa"), w') ∧
        @weights toy w' = 0 ∧
        ∃ m, (m ≤ 3)%nat ∧ @fed toy w' = replicate m [2; 1] ∧
             (is_Ok (Ok (str_of "cbaaa")) → m = 3%nat).
Proof.
  eexists. split; [vm_compute; reflexivity|].
  apply (@generate_text_model_calls toy (str_of "cb") abc_char2id
           abc_id2char 3 (toy_world 7 5) _ (Ok (str_of "cbaaa"))).
  vm_compute. reflexivity.
Defined.

(** X7. With [num_generate <= 0] (a negative one included: the range is
    empty) and a seed whose characters are all keys of [char2id],
    [generate_text] returns the seed unchanged; it has reset the recurrent
    state, and has neither called the model nor drawn anything. *)
Theorem generate_text_no_iteration `{F : Framework}
    (start_string : list N) (char2id : gmap N Z) (id2char : list N)
    (num_generate : Z) (w : world) :
  Forall (λ c, is_Some (char2id !! c)) start_string →
  num_generate ≤ 0 →
  generate_text start_string char2id id2char num_generate w
  = (Ok start_string, reset w) ∧
  lstm (reset w) = zero_state ∧ fed (reset w) = fed w ∧
  gen (reset w) = gen w ∧ weights (reset w) = weights w.
Proof.
  intros (ids & Henc & _)%encode_Ok HN. split; [|done].
  rewrite generate_text_run, Henc.
  replace (Z.to_nat num_generate) with 0%nat by lia.
  rewrite sampling_loop_no_iteration. by rewrite app_nil_r.
Qed.

Lemma generate_text_no_iteration_witness :
  @generate_text toy (str_of "cb") abc_char2id abc_id2char (-2)
    (toy_world 7 5)
  = (Ok (str_of "cb"), reset (toy_world 7 5)).
Proof.
  apply (@generate_text_no_iteration toy (str_of "cb") abc_char2id
           abc_id2char (-2) (toy_world 7 5)).
  - repeat constructor; by eexists.
  - lia.
Defined.

(** X8. With the empty seed and [num_generate >= 1], for a model that
    returns no score vector when it reads no id, [generate_text] raises at
    [[:, -1]] in the first iteration: the model has been called once, on
    the empty sequence, and nothing has been drawn. *)
Theorem generate_text_empty_seed_raises `{F : Framework}
    (char2id : gmap N Z) (id2char : list N) (num_generate : Z) (w : world) :
  (∀ wt st, (forward wt st []).2 = []) →
  0 < num_generate →
  ∃ w',
    generate_text [] char2id id2char num_generate w
    = (Raise IndexError, w') ∧
    fed w' = fed w ++ [[]] ∧ gen w' = gen w ∧ weights w' = weights w.
Proof.
  intros Hpos HN. rewrite generate_text_run. simpl encode. cbv iota.
  destruct (Z.to_nat num_generate) as [|n] eqn:Hn; [lia|].
  rewrite sampling_loop_S, sample_char_run. simpl.
  rewrite Hpos. simpl. by eexists.
Qed.

Lemma generate_text_empty_seed_raises_witness :
  ∃ w',
    @generate_text toy [] abc_char2id abc_id2char 3 (toy_world 7 5)
    = (Raise IndexError, w') ∧
    fed w' = fed (toy_world 7 5) ++ [[]] ∧
    gen w' = gen (toy_world 7 5) ∧ weights w' = weights (toy_world 7 5).
Proof.
  apply (@generate_text_empty_seed_raises toy abc_char2id abc_id2char 3
           (toy_world 7 5)).
  - reflexivity.
  - lia.
Defined.

(** X9. [KeyError] names the first unknown character: when the seed is
    [pre + c + post], every character of [pre] is a key of [char2id] and
    [c] is not, [generate_text] raises [KeyError] for [c] right after the
    reset of the recurrent state, before the model is called and before
    anything is drawn, whatever [num_generate] (0 and negative included),
    [id2char], the model and the rest of the seed are. *)
Theorem generate_text_first_unknown_char `{F : Framework}
    (pre post : list N) (c : N) (char2id : gmap N Z) (id2char : list N)
    (num_generate : Z) (w : world) :
  Forall (λ c, is_Some (char2id !! c)) pre →
  char2id !! c = None →
  generate_text (pre ++ c :: post) char2id id2char num_generate w
  = (Raise (KeyError c), reset w) ∧
  fed (reset w) = fed w ∧ gen (reset w) = gen w.
Proof.
  intros Hpre Hc. split; [|done].
  by rewrite generate_text_run, (encode_Raise _ _ _ _ Hpre Hc).
Qed.

Lemma generate_text_first_unknown_char_witness :
  @generate_text toy (str_of "cxy") abc_char2id abc_id2char 0
    (toy_world 7 5)
  = (Raise (KeyError 120%N), reset (toy_world 7 5)) ∧
  fed (reset (toy_world 7 5)) = fed (toy_world 7 5) ∧
  gen (reset (toy_world 7 5)) = gen (toy_world 7 5).
Proof.
  apply (@generate_text_first_unknown_char toy (str_of "c") (str_of "y")
           120%N abc_char2id abc_id2char 0 (toy_world 7 5)).
  - repeat constructor; by eexists.
  - reflexivity.
Defined.

(** ** [generate_text] on the mappings of a corpus, as [main] calls it *)



(** X12. With the mappings of a text, a seed in which some character does
    not occur in the text makes [generate_text] raise [KeyError] for the
    first such character, before the model is called, whatever
    [num_generate] is. *)
Theorem corpus_generate_text_unseen `{F : Framework}
    (seq_len : nat) (text pre post : list N) (c : N) ds inf
    (num_generate : Z) (w : world) :
  get_dataset_and_info_with seq_len text = Ok (ds, inf) →
  Forall (λ c, c ∈ text) pre →
  c ∉ text →
  generate_text (pre ++ c :: post) (char2id inf) (id2char inf)
    num_generate w
  = (Raise (KeyError c), reset w) ∧ fed (reset w) = fed w.
Proof.
  destruct (get_dataset_and_info_returns seq_len text) as (ids & _ & ->).
  intros [= <- <-] Hpre Hc. simpl. split; [|done].
  rewrite generate_text_run, (encode_Raise _ pre post c); [done| |].
  - eapply Forall_impl; [done|]. intros x Hx. by apply char2id_is_Some.
  - apply dict_of_enumerate_None. by rewrite vocab_elem_of.
Qed.

Lemma corpus_generate_text_unseen_witness :
  @generate_text toy (str_of "CHEWIE") abc_char2id abc_id2char 1000
    (toy_world 7 5)
  = (Raise (KeyError 67%N), reset (toy_world 7 5)) ∧
  fed (reset (toy_world 7 5)) = fed (toy_world 7 5).
Proof.
  apply (@corpus_generate_text_unseen toy 3 (str_of "abcabcabc") []
           (str_of "HEWIE") 67%N
           [([0; 1; 2], [1; 2; 0]); ([1; 2; 0], [2; 0; 1])]
           {| vocab := abc_id2char; char2id := abc_char2id;
              id2char := abc_id2char;
              text_as_ids := [0; 1; 2; 0; 1; 2; 0; 1; 2] |}
           1000 (toy_world 7 5)).
  - vm_compute. reflexivity.
  - constructor.
  - vm_compute str_of. rewrite !elem_of_cons, elem_of_nil.
    intros H. repeat destruct H as [H|H]; done.
Defined.

(** X13. With the mappings of a text, every string made of characters of
    the text (a seed, for one) is encoded without error, into one id per
    character, the id that [char2id] gives it, each in
    [0 .. vocab_size - 1]; [id2char] reads each id back as the
    one-character string of its character, except the id of U+0000, which
    it reads as the empty string. *)
Theorem corpus_encode_round_trip
    (seq_len : nat) (text s : list N) ds inf :
  get_dataset_and_info_with seq_len text = Ok (ds, inf) →
  Forall (λ c, c ∈ text) s →
  ∃ ids,
    encode (char2id inf) s = Ok ids ∧
    Forall2 (λ c i, 0 ≤ i < Z.of_nat (length (vocab inf)) ∧
                    char2id inf !! c = Some i ∧
                    np_str_getitem (id2char inf) i
                    = Ok (if decide (c = 0%N) then [] else [c])) s ids.
Proof.
  destruct (get_dataset_and_info_returns seq_len text) as (ids0 & _ & ->).
  intros [= <- <-] Hs. simpl.
  destruct (encode_Ok
              (dict_of (enumerate (sorted (elements
                 (list_to_set text : gset N))))) s) as (ids & Henc & Hids).
  { eapply Forall_impl; [done|]. intros c Hc. by apply char2id_is_Some. }
  exists ids. split; [done|].
  eapply Forall2_impl; [done|]. simpl.
  intros c i Hci. split; [|split; [done|]].
  - apply char2id_lookup in Hci as [Hi Hc].
    apply lookup_lt_Some in Hc. lia.
  - apply char2id_lookup in Hci as [Hi Hc].
    by apply (np_str_getitem_Ok _ i c).
Qed.

Lemma corpus_encode_round_trip_witness :
  ∃ ids,
    encode nul_char2id nul_text = Ok ids ∧
    Forall2 (λ c i, 0 ≤ i < Z.of_nat (length nul_id2char) ∧
                    nul_char2id !! c = Some i ∧
                    np_str_getitem nul_id2char i
                    = Ok (if decide (c = 0%N) then [] else [c]))
            nul_text ids.
Proof.
  apply (corpus_encode_round_trip 1 nul_text nul_text
           [([1], [0])]
           {| vocab := nul_id2char; char2id := nul_char2id;
              id2char := nul_id2char; text_as_ids := [1; 0; 2] |}).
  - vm_compute. reflexivity.
  - unfold nul_text. repeat constructor.
Defined.

(** The maps [nul_char2id] and [nul_id2char] are those of the text
    [nul_text]. *)
Example nul_maps :
  get_dataset_and_info_with 1 nul_text =
  Ok ([([1], [0])],
      {| vocab := [0; 97; 98]%N; char2id := nul_char2id;
         id2char := nul_id2char; text_as_ids := [1; 0; 2] |}).
Proof. vm_compute. reflexivity. Qed.
